(** * Portfolio single-page app: scroll spy, command palette search, theme

    A shallow embedding of the client-side logic of the portfolio app:
    - [useScrollSpy]   (the active-section tracker),
    - [CommandPalette] (the [results] memo and the open/close life cycle),
    - [App]            (theme resolution and persistence), in the two
      versions of the component that the repository holds; its sections,
      navigation, keyboard shortcut and the selection of a result,
    - [cn], [BASE_URL], [runSelfTests] (the module-level helpers).

    Conventions of the embedding.
    - A JavaScript string is a [string] of 8-bit characters; the built-ins
      [trim], [toLowerCase] and [includes] are given with their behaviour
      on ASCII text (all labels and names of the app are ASCII).
    - A number read from the layout ([getBoundingClientRect().top]) is a
      finite number; only the order of these numbers is used by the code,
      and they are embedded as [Z] (pixels).
    - [document.getElementById] never finds an element for the empty
      identifier (an element whose [id] attribute is empty has no ID).
    - React state is passed explicitly; an effect is a function on the
      state, run in declaration order after the render that schedules it. *)

From Stdlib Require Import ZArith Ascii String List.
From stdpp Require Import base option list strings gmap.

Local Open Scope string_scope.
Local Open Scope list_scope.
Local Open Scope Z_scope.

(** ** JavaScript built-ins used by the app *)
Module JS.

(** Truthiness of a string value: every string but the empty one. *)
Definition truthy (s : string) : bool :=
  match s with
  | EmptyString => false
  | String _ _ => true
  end.

(** [a || b] on strings. *)
Definition or_else (a b : string) : string := if truthy a then a else b.

Definition lower_char (c : ascii) : ascii :=
  let n := N_of_ascii c in
  if ((65 <=? n) && (n <=? 90))%N then ascii_of_N (n + 32) else c.

(** [String.prototype.toLowerCase]. *)
Fixpoint toLowerCase (s : string) : string :=
  match s with
  | EmptyString => EmptyString
  | String c s' => String (lower_char c) (toLowerCase s')
  end.

(** White space and line terminators: TAB, LF, VT, FF, CR, SP. *)
Definition is_white (c : ascii) : bool :=
  let n := N_of_ascii c in
  (((9 <=? n) && (n <=? 13)) || (n =? 32))%N.

Fixpoint trimStart (s : string) : string :=
  match s with
  | EmptyString => EmptyString
  | String c s' => if is_white c then trimStart s' else s
  end.

Fixpoint trimEnd (s : string) : string :=
  match s with
  | EmptyString => EmptyString
  | String c s' =>
      let r := trimEnd s' in
      if is_white c && negb (truthy r) then EmptyString else String c r
  end.

(** [String.prototype.trim]. *)
Definition trim (s : string) : string := trimEnd (trimStart s).

(** [String.prototype.includes]: [sub] occurs in [s] as a substring. *)
Fixpoint includes (s sub : string) : bool :=
  String.prefix sub s
  || match s with
     | EmptyString => false
     | String _ s' => includes s' sub
     end.

(** [Array.prototype.sort] with a comparator: the sort is stable, [a] is
    placed before [b] when [cmp a b < 0] and after it when [cmp a b > 0].
    [insert_by] puts an element that stood in front of [l] into the
    sorted [l], ahead of the elements it compares equal to. *)
Fixpoint insert_by {A} (cmp : A -> A -> Z) (x : A) (l : list A) : list A :=
  match l with
  | [] => [x]
  | y :: l' => if cmp x y <=? 0 then x :: l else y :: insert_by cmp x l'
  end.

Definition sort {A} (cmp : A -> A -> Z) (l : list A) : list A :=
  foldr (insert_by cmp) [] l.

(** [Array.prototype.filter(Boolean)] on an array of objects and [null]s. *)
Fixpoint filter_Boolean {A} (l : list (option A)) : list A :=
  match l with
  | [] => []
  | None :: l' => filter_Boolean l'
  | Some x :: l' => x :: filter_Boolean l'
  end.

End JS.

(** ** useScrollSpy *)
Module ScrollSpy.

(** The layout at one scroll position: the top edge, relative to the
    viewport, of each element that carries an identifier. *)
Definition Document : Type := gmap string Z.

(** [document.getElementById(id)], giving the element's
    [getBoundingClientRect().top] when the element exists. *)
Definition getElementById (doc : Document) (id : string) : option Z :=
  if JS.truthy id then doc !! id else None.

(** The objects [{ id, top }] built by the handler. *)
Record Position : Type := { id : string; top : Z }.

(** [sectionIds.map(...).filter(Boolean)] *)
Definition positions (doc : Document) (sectionIds : list string)
  : list Position :=
  JS.filter_Boolean
    (map (fun i =>
            match getElementById doc i with
            | None => None
            | Some t => Some {| id := i; top := t |}
            end) sectionIds).

(** [positions.filter((p) => p.top <= offset).sort((a, b) => b.top - a.top)[0]] *)
Definition current (doc : Document) (sectionIds : list string) (offset : Z)
  : option Position :=
  head (JS.sort (fun a b => top b - top a)
          (List.filter (fun p => top p <=? offset)
             (positions doc sectionIds))).

(** One run of [handler]: the value of [active] after it.
    [if (current?.id) setActive(current.id)] *)
Definition handler (doc : Document) (sectionIds : list string) (offset : Z)
    (active : string) : string :=
  match current doc sectionIds offset with
  | Some p => if JS.truthy (id p) then id p else active
  | None => active
  end.

(** [useState(sectionIds[0] || "")] *)
Definition initial_active (sectionIds : list string) : string :=
  match sectionIds !! 0%nat with
  | Some s => JS.or_else s ""
  | None => ""
  end.

(** The value returned by the hook after the handler has run at each of
    the layouts [docs] in turn: the first one at mount, the next ones at
    the scroll events. With [docs = []] it is the value of the first
    render. *)
Definition useScrollSpy (sectionIds : list string) (offset : Z)
    (docs : list Document) : string :=
  foldl (fun active doc => handler doc sectionIds offset active)
    (initial_active sectionIds) docs.

(** The default threshold of the hook, and the one [App] passes. *)
Definition default_offset : Z := 120.
Definition app_offset : Z := 140.

End ScrollSpy.

(** ** CommandPalette *)
Module Palette.

(** [{ id, label }], an entry of [sections]. *)
Record Section : Type := { s_id : string; s_label : string }.

(** An entry of [CONTENT.projects]; the palette reads [id] and [name]
    only, the descriptive fields are left out. *)
Record Project : Type := { p_id : string; p_name : string }.

(** [{ type, id, label }], an entry of [results]. *)
Record Item : Type := { type : string; id : string; label : string }.

Definition section_item (s : Section) : Item :=
  {| type := "section"; id := s_id s; label := s_label s |}.

Definition project_item (p : Project) : Item :=
  {| type := "project"; id := p_id p; label := p_name p |}.

(** [(x) => (query ? x.label.toLowerCase().includes(query) : true)] *)
Definition keep (query : string) (x : Item) : bool :=
  if JS.truthy query
  then JS.includes (JS.toLowerCase (label x)) query
  else true.

(** The [results] memo for the query text [q]. *)
Definition results (q : string) (sections : list Section)
    (projects : list Project) : list Item :=
  let query := JS.toLowerCase (JS.trim q) in
  let sec := List.filter (keep query) (map section_item sections) in
  let proj := List.filter (keep query) (map project_item projects) in
  take 10 (sec ++ proj).

(** The state of the overlay: [paletteOpen] of [App], passed down as
    [open], and the query text [q] of [CommandPalette]. *)
Record State : Type := { open : bool; q : string }.

(** The events that reach the two pieces of state. The escape listener
    is registered while the overlay is open; the backdrop, the result
    buttons and the input exist only in the open overlay. *)
Inductive Event : Type :=
| Shortcut              (* Ctrl/Cmd + K *)
| SearchButton          (* the header button *)
| Escape
| Backdrop
| Select (r : Item)
| Input (text : string).

(** [useEffect(() => { if (!open) setQ(""); }, [open])] *)
Definition reset_effect (s : State) : State :=
  if open s then s else {| open := false; q := "" |}.

(** The render after a state update: the effect runs when its
    dependency [open] has changed. *)
Definition commit (old new : State) : State :=
  if Bool.eqb (open old) (open new) then new else reset_effect new.

Definition setPaletteOpen (v : bool) (s : State) : State :=
  commit s {| open := v; q := q s |}.

Definition setQ (text : string) (s : State) : State :=
  {| open := open s; q := text |}.

Definition step (s : State) (ev : Event) : State :=
  match ev with
  | Shortcut | SearchButton => setPaletteOpen true s
  | Escape | Backdrop | Select _ =>
      if open s then setPaletteOpen false s else s
  | Input text => if open s then setQ text s else s
  end.

(** After mount: [useState(false)], [useState("")] and the first run of
    the effect. *)
Definition mounted : State := reset_effect {| open := false; q := "" |}.

Definition run (evs : list Event) : State := foldl step mounted evs.

End Palette.

(** ** App: theme (the component with the palette and the scroll spy) *)
Module Theme.

(** [dark], the [localStorage] of the origin, and whether the document
    root carries the class [dark]. *)
Record State : Type :=
  { dark : bool; localStorage : gmap string string; root_dark : bool }.

(** The value that the first effect passes to [setDark]:
    [stored ? stored === "dark" : window.matchMedia?.(...)?.matches]
    and then [!!initial]. [media] is [None] when [matchMedia] is
    missing, else the [matches] of the query. *)
Definition resolve (ls : gmap string string) (media : option bool) : bool :=
  let stored := ls !! "theme" in
  let initial :=
    match stored with
    | Some v => if JS.truthy v then Some (bool_decide (v = "dark")) else media
    | None => media
    end in
  match initial with
  | Some b => b
  | None => false
  end.

(** The second effect, for the rendered value [d] of [dark]. *)
Definition theme_effect (d : bool) (ls : gmap string string) : State :=
  {| dark := d;
     localStorage := <["theme" := if d then "dark" else "light"]> ls;
     root_dark := d |}.

(** Mount: the first render has [dark = false]; its effects run in
    order, the first reads the store before the second writes it; the
    state update renders again and the second effect runs again when
    [dark] has changed. *)
Definition mount (ls : gmap string string) (media : option bool) : State :=
  let first := false in
  let target := resolve ls media in
  let s1 := theme_effect first ls in
  if Bool.eqb target first then s1
  else theme_effect target (localStorage s1).

(** [setDark((v) => !v)] and the effect of the render that follows. *)
Definition toggle (s : State) : State :=
  theme_effect (negb (dark s)) (localStorage s).

(** A reload keeps the store and mounts again. *)
Definition reload (s : State) (media : option bool) : State :=
  mount (localStorage s) media.

End Theme.

(** ** App: theme (the component of src/App.jsx) *)
Module ThemeMinimal.

Record State : Type :=
  { dark : bool; localStorage : gmap string string; root_dark : bool }.

(** [useState(true)] and
    [document.documentElement.classList.toggle("dark", dark)]; the store
    and the media query are not read. *)
Definition mount (ls : gmap string string) (media : option bool) : State :=
  {| dark := true; localStorage := ls; root_dark := true |}.

(** [setDark(!dark)] and the effect of the render that follows. *)
Definition toggle (s : State) : State :=
  {| dark := negb (dark s);
     localStorage := localStorage s;
     root_dark := negb (dark s) |}.

Definition reload (s : State) (media : option bool) : State :=
  mount (localStorage s) media.

End ThemeMinimal.

(** ** A visitor's use of the theme over time *)
Module Visit.

(** What a visitor does after the first load: press the theme button, or
    load the page again (the media query may have changed by then). *)
Inductive Action : Type :=
| Toggle
| Reload (media : option bool).

Definition act (s : Theme.State) (a : Action) : Theme.State :=
  match a with
  | Toggle => Theme.toggle s
  | Reload media => Theme.reload s media
  end.

(** The state after a first load with the store [ls] and the actions
    [acts]. *)
Definition session (ls : gmap string string) (media : option bool)
    (acts : list Action) : Theme.State :=
  foldl act (Theme.mount ls media) acts.

(** The number of presses of the theme button among [acts]. *)
Fixpoint toggles (acts : list Action) : nat :=
  match acts with
  | [] => 0
  | Toggle :: l => S (toggles l)
  | Reload _ :: l => toggles l
  end.

End Visit.

(** ** Module-level helpers: [cn], [BASE_URL], [runSelfTests] *)
Module Util.

(** [Array.prototype.join] on an array of strings. *)
Fixpoint join (sep : string) (l : list string) : string :=
  match l with
  | [] => ""
  | [x] => x
  | x :: l' => x +:+ sep +:+ join sep l'
  end.

(** [classes.filter(Boolean)]: an argument of [cn] is a string or a
    falsy value that is not a string ([undefined], [false], [null]),
    here [None]; the empty string is falsy too. *)
Fixpoint truthy_classes (classes : list (option string)) : list string :=
  match classes with
  | [] => []
  | Some c :: l => if JS.truthy c then c :: truthy_classes l
                   else truthy_classes l
  | None :: l => truthy_classes l
  end.

(** [const cn = (...classes) => classes.filter(Boolean).join(" ")] *)
Definition cn (classes : list (option string)) : string :=
  join " " (truthy_classes classes).

(** [s.replace(/([^/])$/, "$1/")]: the pattern matches a last character
    that is not a slash, and the replacement writes it back followed by a
    slash. *)
Fixpoint ensure_trailing_slash (s : string) : string :=
  match s with
  | EmptyString => EmptyString
  | String c EmptyString =>
      if Ascii.eqb c "/" then s else String c (String "/" EmptyString)
  | String c s' => String c (ensure_trailing_slash s')
  end.

(** [(import.meta?.env?.BASE_URL || "/").replace(/([^/])$/, "$1/")];
    [env] is [None] when the build defines no base. *)
Definition BASE_URL (env : option string) : string :=
  ensure_trailing_slash
    match env with
    | Some b => JS.or_else b "/"
    | None => "/"
    end.

(** [CONTENT.resumeUrl] and [BG_IMAGE_URL]. *)
Definition resumeUrl (env : option string) : string :=
  BASE_URL env +:+ "Neil-Toms-Resume.pdf".

Definition BG_IMAGE_URL (env : option string) : string :=
  BASE_URL env +:+ "backgrounds/tech-bg.jpg".

(** The two conditions that [runSelfTests] passes to [console.assert]. *)
Definition runSelfTests (env : option string) : bool * bool :=
  (JS.truthy (BASE_URL env),
   JS.includes (resumeUrl env) "Neil-Toms-Resume.pdf").

(** A text made of white space only (a query that [trim] empties). *)
Fixpoint all_white (s : string) : bool :=
  match s with
  | EmptyString => true
  | String c s' => JS.is_white c && all_white s'
  end.

End Util.

(** ** App: sections, navigation, keyboard shortcut, result selection *)
Module App.

(** The [sections] memo. *)
Definition sections : list Palette.Section :=
  [ {| Palette.s_id := "top"; Palette.s_label := "Home" |};
    {| Palette.s_id := "about"; Palette.s_label := "About" |};
    {| Palette.s_id := "skills"; Palette.s_label := "Skills" |};
    {| Palette.s_id := "projects"; Palette.s_label := "Projects" |};
    {| Palette.s_id := "experience"; Palette.s_label := "Experience" |};
    {| Palette.s_id := "resume"; Palette.s_label := "Resume" |};
    {| Palette.s_id := "timeline"; Palette.s_label := "Timeline" |};
    {| Palette.s_id := "contact"; Palette.s_label := "Contact" |} ].

(** [CONTENT.projects], with the fields the palette reads. *)
Definition projects : list Palette.Project :=
  [ {| Palette.p_id := "portfolio";
       Palette.p_name := "Interactive Portfolio Website" |};
    {| Palette.p_id := "pi";
       Palette.p_name := "Raspberry Pi Setup + Troubleshooting Notes" |};
    {| Palette.p_id := "3d";
       Palette.p_name := "3D-Printed Cup & Lid Organizer (Prototype)" |} ].

(** [sections.filter((s) => s.id !== "top")], the [sections] prop of the
    palette. *)
Definition palette_sections (secs : list Palette.Section)
  : list Palette.Section :=
  List.filter (fun s => negb (String.eqb (Palette.s_id s) "top")) secs.

(** [useScrollSpy(sections.map((s) => s.id), 140)] *)
Definition active (secs : list Palette.Section)
    (docs : list ScrollSpy.Document) : string :=
  ScrollSpy.useScrollSpy (map Palette.s_id secs) ScrollSpy.app_offset docs.

(** The navigation buttons drawn as current: [active === s.id]. *)
Definition nav_current (act : string) (secs : list Palette.Section)
  : list Palette.Section :=
  List.filter (fun s => String.eqb act (Palette.s_id s)) secs.

(** The identifiers that the rendered page carries: [main], the seven
    [Section] elements, and one wrapper [project-<id>] for each project. *)
Definition page_ids (projs : list Palette.Project) : list string :=
  ["top"; "about"; "skills"; "projects"; "experience"; "resume";
   "timeline"; "contact"]
  ++ map (fun p => "project-" +:+ Palette.p_id p) projs.

(** A keydown event, with the fields the listeners read; [key] may be
    missing. *)
Record KeyEvent : Type :=
  { key : option string; ctrlKey : bool; metaKey : bool }.

(** [(e.ctrlKey || e.metaKey) && e.key?.toLowerCase() === "k"] *)
Definition is_shortcut (e : KeyEvent) : bool :=
  let isK := match key e with
             | Some k => String.eqb (JS.toLowerCase k) "k"
             | None => false
             end in
  (ctrlKey e || metaKey e) && isK.

(** [e.key === "Escape"] *)
Definition is_escape (e : KeyEvent) : bool :=
  match key e with
  | Some k => String.eqb k "Escape"
  | None => false
  end.

(** A keydown on the window: the listener of [App], then the listener
    that [CommandPalette] registers while [open] is true. The second
    component of the result tells whether [preventDefault] was called. *)
Definition keydown (s : Palette.State) (e : KeyEvent)
  : Palette.State * bool :=
  let s1 := if is_shortcut e then Palette.step s Palette.Shortcut else s in
  let s2 := if Palette.open s && is_escape e
            then Palette.setPaletteOpen false s1 else s1 in
  (s2, is_shortcut e).

(** A call of [scrollIntoView({ behavior: "smooth", block })] on the
    element with the identifier [target]. *)
Record Scroll : Type := { target : string; block : string }.

(** [scrollToId(id)]: nothing happens without the element. *)
Definition scrollToId (doc : ScrollSpy.Document) (i : string) : list Scroll :=
  match ScrollSpy.getElementById doc i with
  | Some _ => [ {| target := i; block := "start" |} ]
  | None => []
  end.

(** The click on the result [r], after [onClose()]: the scroll made at
    once, at the layout [doc]. *)
Definition select_now (doc : ScrollSpy.Document) (r : Palette.Item)
  : list Scroll :=
  if String.eqb (Palette.type r) "project"
  then scrollToId doc "projects"
  else scrollToId doc (Palette.id r).

(** The scroll made by the callback of [setTimeout(..., 250)], at the
    layout [doc] of that moment. *)
Definition select_later (doc : ScrollSpy.Document) (r : Palette.Item)
  : list Scroll :=
  if String.eqb (Palette.type r) "project"
  then match ScrollSpy.getElementById doc ("project-" +:+ Palette.id r) with
       | Some _ => [ {| target := "project-" +:+ Palette.id r;
                        block := "center" |} ]
       | None => []
       end
  else [].

(** [key={`${r.type}-${r.id}`}] of a result button. *)
Definition result_key (r : Palette.Item) : string :=
  Palette.type r +:+ "-" +:+ Palette.id r.

End App.

(** ** Sample data for the worked examples *)
Module Sample.

(** A layout with about at -50 and skills at 30. *)
Definition layout_about_skills : ScrollSpy.Document :=
  <["about" := -50]> (<["skills" := 30]> ∅).

(** A layout with every region below the line at 140. *)
Definition layout_all_below : ScrollSpy.Document :=
  <["top" := 150]> (<["about" := 900]> ∅).

Definition sec (i l : string) : Palette.Section :=
  {| Palette.s_id := i; Palette.s_label := l |}.

Definition proj (i n : string) : Palette.Project :=
  {| Palette.p_id := i; Palette.p_name := n |}.

Definition home : Palette.Section := sec "top" "Home".
Definition about : Palette.Section := sec "about" "About".
Definition skills : Palette.Section := sec "skills" "Skills".

Definition portfolio : Palette.Project :=
  proj "portfolio" "Interactive Portfolio Website".

(** Eight sections and seven projects whose labels all contain "a". *)
Definition eight_sections : list Palette.Section :=
  [sec "s1" "Area 1"; sec "s2" "Area 2"; sec "s3" "Area 3";
   sec "s4" "Area 4"; sec "s5" "Area 5"; sec "s6" "Area 6";
   sec "s7" "Area 7"; sec "s8" "Area 8"].

Definition seven_projects : list Palette.Project :=
  [proj "p1" "App 1"; proj "p2" "App 2"; proj "p3" "App 3";
   proj "p4" "App 4"; proj "p5" "App 5"; proj "p6" "App 6";
   proj "p7" "App 7"].

End Sample.

(** * Properties *)

(** ** The active-section tracker *)
Section ScrollSpyFacts.
Import ScrollSpy.
Implicit Types (doc : Document) (ids : list string) (offset : Z).
Implicit Types (p r : Position) (l : list Position).

(** The comparator of the handler: larger [top] first. *)
Let by_top : Position -> Position -> Z := fun a b => top b - top a.

Lemma getElementById_truthy doc i t :
  getElementById doc i = Some t -> JS.truthy i = true.
Proof. unfold getElementById. destruct (JS.truthy i); [done | discriminate]. Qed.

Lemma elem_of_positions doc ids p :
  p ∈ positions doc ids <->
  id p ∈ ids /\ getElementById doc (id p) = Some (top p).
Proof.
  unfold positions. induction ids as [|i ids IH]; simpl.
  - split; [intros H; inversion H | intros [H _]; inversion H].
  - destruct (getElementById doc i) as [t|] eqn:E; simpl.
    + rewrite elem_of_cons, IH, elem_of_cons. split.
      * intros [-> | [? ?]]; simpl; auto.
      * intros [[Hi | Hin] Hg]; [left | right; auto].
        destruct p as [pi pt]; simpl in *. subst. congruence.
    + rewrite IH, elem_of_cons. split; [intros [? ?]; auto |].
      intros [[Hi | Hin] Hg]; [| auto]. subst. congruence.
Qed.

Lemma positions_truthy doc ids p :
  p ∈ positions doc ids -> JS.truthy (id p) = true.
Proof.
  intros [_ Hg]%elem_of_positions. eapply getElementById_truthy, Hg.
Qed.

Lemma head_insert_by x l :
  head (JS.insert_by by_top x l) =
  Some match head l with
       | Some y => if top y <=? top x then x else y
       | None => x
       end.
Proof.
  destruct l as [|y l]; simpl; [done |]. unfold by_top.
  destruct (Z.leb_spec (top y - top x) 0), (Z.leb_spec (top y) (top x));
    simpl; try done; lia.
Qed.

Lemma head_sort_nil l : head (JS.sort by_top l) = None -> l = [].
Proof.
  destruct l as [|x l]; [done |]. unfold JS.sort. simpl.
  rewrite head_insert_by. discriminate.
Qed.

(** The first entry of the sorted array is the first of the entries of
    largest [top] in the array that was sorted. *)
Lemma head_sort_first_max l p :
  head (JS.sort by_top l) = Some p ->
  exists l1 l2, l = l1 ++ p :: l2
    /\ Forall (fun r => top r < top p) l1
    /\ Forall (fun r => top r <= top p) l2.
Proof.
  revert p. induction l as [|x l IH]; intros p; [discriminate |].
  unfold JS.sort. simpl. rewrite head_insert_by.
  fold (JS.sort by_top l).
  destruct (head (JS.sort by_top l)) as [y|] eqn:Hy.
  - destruct (IH y eq_refl) as (l1 & l2 & -> & H1 & H2).
    destruct (Z.leb_spec (top y) (top x)); intros [= <-].
    + exists [], (l1 ++ y :: l2). split; [done |]. split; [constructor |].
      apply Forall_app. split.
      * eapply Forall_impl; [exact H1 |]. simpl. intros; lia.
      * constructor; [done |]. eapply Forall_impl; [exact H2 |].
        simpl. intros; lia.
    + exists (x :: l1), l2. split; [done |]. split; [| done].
      constructor; [lia | done].
  - apply head_sort_nil in Hy. subst l. intros [= <-].
    exists [], []. repeat split; constructor.
Qed.

Lemma head_sort_max l p r :
  head (JS.sort by_top l) = Some p -> r ∈ l -> p ∈ l /\ top r <= top p.
Proof.
  intros (l1 & l2 & -> & H1 & H2)%head_sort_first_max Hr.
  split; [apply elem_of_app; right; left |].
  rewrite Forall_forall in H1, H2.
  apply elem_of_app in Hr as [Hr | Hr]; [apply H1 in Hr; lia |].
  apply elem_of_cons in Hr as [-> | Hr]; [lia | by apply H2].
Qed.

Lemma elem_of_qualifying doc ids offset p :
  p ∈ List.filter (fun p => top p <=? offset) (positions doc ids) <->
  p ∈ positions doc ids /\ top p <= offset.
Proof.
  rewrite !list_elem_of_In, filter_In, Z.leb_le. reflexivity.
Qed.

Lemma current_Some doc ids offset p :
  current doc ids offset = Some p ->
  p ∈ positions doc ids /\ top p <= offset
  /\ forall r, r ∈ positions doc ids -> top r <= offset -> top r <= top p.
Proof.
  unfold current. intros H.
  assert (Hp : p ∈ List.filter (fun p => top p <=? offset) (positions doc ids)).
  { apply head_sort_first_max in H as (l1 & l2 & -> & _).
    apply elem_of_app; right; left. }
  apply elem_of_qualifying in Hp as [Hp Hle]. repeat split; try done.
  intros r Hr Hro. eapply head_sort_max; [exact H |].
  by apply elem_of_qualifying.
Qed.

Lemma current_None doc ids offset :
  current doc ids offset = None ->
  forall r, r ∈ positions doc ids -> offset < top r.
Proof.
  unfold current. intros H%head_sort_nil r Hr.
  destruct (Z.lt_ge_cases offset (top r)) as [|Hle]; [done |].
  assert (Hq : r ∈ List.filter (fun p => top p <=? offset) (positions doc ids))
    by by apply elem_of_qualifying.
  rewrite H in Hq. inversion Hq.
Qed.

Lemma handler_Some doc ids offset active p :
  current doc ids offset = Some p -> handler doc ids offset active = id p.
Proof.
  intros H. unfold handler. rewrite H.
  apply current_Some in H as [Hp _]. by rewrite (positions_truthy _ _ _ Hp).
Qed.

Lemma handler_None doc ids offset active :
  current doc ids offset = None -> handler doc ids offset active = active.
Proof. intros H. unfold handler. by rewrite H. Qed.

(** A run of the handler keeps the value or moves to a configured one. *)
Lemma handler_keeps_or_member doc ids offset active :
  handler doc ids offset active = active
  \/ handler doc ids offset active ∈ ids.
Proof.
  destruct (current doc ids offset) as [p|] eqn:H.
  - right. rewrite (handler_Some _ _ _ _ _ H).
    apply current_Some in H as [Hp _]. by apply elem_of_positions in Hp as [? _].
  - left. by apply handler_None.
Qed.

Lemma initial_active_cons i ids : initial_active (i :: ids) = i.
Proof. unfold initial_active, JS.or_else. simpl. by destruct i. Qed.

Lemma foldl_handler_member ids offset docs active :
  active ∈ ids ->
  foldl (fun a doc => handler doc ids offset a) active docs ∈ ids.
Proof.
  revert active. induction docs as [|doc docs IH]; intros active Ha; [done |].
  simpl. apply IH.
  destruct (handler_keeps_or_member doc ids offset active) as [-> | H]; done.
Qed.

Lemma useScrollSpy_member i ids offset docs :
  useScrollSpy (i :: ids) offset docs ∈ i :: ids.
Proof.
  unfold useScrollSpy. apply foldl_handler_member.
  rewrite initial_active_cons. left.
Qed.

Lemma useScrollSpy_nil offset docs : useScrollSpy [] offset docs = "".
Proof.
  unfold useScrollSpy. simpl initial_active.
  induction docs as [|doc docs IH]; [done |]. simpl. exact IH.
Qed.

End ScrollSpyFacts.

Section ScrollSpyClaims.
Import ScrollSpy.
Implicit Types (doc : Document) (ids : list string) (offset : Z).

Lemma filter_Boolean_app {A} (l k : list (option A)) :
  JS.filter_Boolean (l ++ k) = JS.filter_Boolean l ++ JS.filter_Boolean k.
Proof.
  induction l as [|[x|] l IH]; simpl; [done | by rewrite IH | done].
Qed.

Lemma positions_app doc ids ids' :
  positions doc (ids ++ ids') = positions doc ids ++ positions doc ids'.
Proof. unfold positions. by rewrite map_app, filter_Boolean_app. Qed.

Lemma no_qualify_current doc ids offset :
  (forall j t, j ∈ ids -> getElementById doc j = Some t -> offset < t) ->
  current doc ids offset = None.
Proof.
  intros H. destruct (current doc ids offset) as [p|] eqn:E; [| done].
  apply current_Some in E as ([Hin Hg]%elem_of_positions & Hle & _).
  specialize (H _ _ Hin Hg). lia.
Qed.

(** C1 — Scroll-spy selection. Whenever some configured section has a
    region whose top edge is at or below the threshold, a run of the
    handler makes active a configured section that has a region, whose
    top edge is at or below the threshold, and whose top edge is the
    largest among the configured sections with a region at or below the
    threshold. With sections about and skills at -50 and 30 and the
    threshold 120, skills becomes active. *)
Theorem scroll_spy_selects_largest_top :
  (forall doc ids offset active,
      (exists i t, i ∈ ids /\ getElementById doc i = Some t /\ t <= offset) ->
      exists t,
        handler doc ids offset active ∈ ids
        /\ getElementById doc (handler doc ids offset active) = Some t
        /\ t <= offset
        /\ forall j u, j ∈ ids -> getElementById doc j = Some u ->
                       u <= offset -> u <= t)
  /\ handler Sample.layout_about_skills ["about"; "skills"] 120 "about" = "skills"
  /\ useScrollSpy ["about"; "skills"] 120 [Sample.layout_about_skills] = "skills".
Proof.
  split; [| split; vm_compute; reflexivity].
  intros doc ids offset active (i & t & Hi & Hg & Hle).
  destruct (current doc ids offset) as [p|] eqn:E.
  - rewrite (handler_Some _ _ _ active _ E).
    apply current_Some in E as ([Hin Hgp]%elem_of_positions & Hp & Hmax).
    exists (top p). repeat split; try done.
    intros j u Hj Hu Hle'.
    apply (Hmax {| id := j; top := u |}); [| done].
    by apply elem_of_positions.
  - exfalso.
    pose proof (current_None _ _ _ E {| id := i; top := t |}) as H.
    simpl in H. enough (offset < t) by lia.
    apply H. by apply elem_of_positions.
Qed.

Lemma scroll_spy_selects_largest_top_witness :
  exists t,
    handler Sample.layout_about_skills ["about"; "skills"] 120 "about"
      ∈ ["about"; "skills"]
    /\ getElementById Sample.layout_about_skills
         (handler Sample.layout_about_skills ["about"; "skills"] 120 "about")
       = Some t
    /\ t <= 120
    /\ forall j u, j ∈ ["about"; "skills"] ->
                   getElementById Sample.layout_about_skills j = Some u ->
                   u <= 120 -> u <= t.
Proof.
  apply (proj1 scroll_spy_selects_largest_top).
  exists "about", (-50). split; [constructor |].
  split; [vm_compute; reflexivity | lia].
Defined.

(** C2 (as stated) fails: with an empty list of sections the active
    identifier is the empty string, which is not in the list. *)
Lemma active_member_fails_for_empty_list :
  useScrollSpy [] 140 [Sample.layout_about_skills] = ""
  /\ ~ (forall ids offset docs, useScrollSpy ids offset docs ∈ ids).
Proof.
  split; [vm_compute; reflexivity |].
  intros H. specialize (H [] 140 [Sample.layout_about_skills]). inversion H.
Qed.

(** C2 (amended) — Active-section membership. For every non-empty list
    of configured sections, every threshold and every sequence of
    layouts at which the handler runs (sections without a region
    included), the active identifier is a member of the list. *)
Theorem active_member_of_nonempty_list ids offset docs :
  ids <> [] -> useScrollSpy ids offset docs ∈ ids.
Proof.
  destruct ids as [|i ids]; [done |]. intros _. apply useScrollSpy_member.
Qed.

Lemma active_member_of_nonempty_list_witness :
  useScrollSpy ["top"; "about"; "skills"] 140
    [Sample.layout_about_skills; ∅; Sample.layout_about_skills]
    ∈ ["top"; "about"; "skills"].
Proof.
  apply (active_member_of_nonempty_list ["top"; "about"; "skills"] 140
           [Sample.layout_about_skills; ∅; Sample.layout_about_skills]).
  discriminate.
Defined.

(** C6 — Default and no-qualify behaviour. The state starts at the first
    configured section; a run of the handler at a layout where no
    configured section has its top edge at or below the threshold
    leaves the state as it was; so after any number of such runs from
    mount the active section is the first configured one. *)
Theorem scroll_spy_default_when_none_qualify :
  (forall i ids, initial_active (i :: ids) = i)
  /\ (forall doc ids offset active,
         (forall j t, j ∈ ids -> getElementById doc j = Some t -> offset < t) ->
         handler doc ids offset active = active)
  /\ (forall i ids offset docs,
         Forall (fun doc => forall j t, j ∈ i :: ids ->
                    getElementById doc j = Some t -> offset < t) docs ->
         useScrollSpy (i :: ids) offset docs = i).
Proof.
  split; [apply initial_active_cons |].
  assert (Hstay : forall doc ids offset active,
    (forall j t, j ∈ ids -> getElementById doc j = Some t -> offset < t) ->
    handler doc ids offset active = active).
  { intros doc ids offset active H.
    by apply handler_None, no_qualify_current. }
  split; [exact Hstay |].
  intros i ids offset docs Hdocs. unfold useScrollSpy.
  rewrite initial_active_cons.
  induction Hdocs as [|doc docs Hdoc _ IH]; [done |].
  simpl. by rewrite Hstay.
Qed.

Lemma scroll_spy_default_when_none_qualify_witness :
  handler Sample.layout_all_below ["top"; "about"; "skills"] 140 "about" = "about"
  /\ useScrollSpy ["top"; "about"; "skills"] 140 [Sample.layout_all_below] = "top".
Proof.
  assert (H : forall j t, j ∈ ["top"; "about"; "skills"] ->
              getElementById Sample.layout_all_below j = Some t -> 140 < t).
  { intros j t Hj Hg.
    apply elem_of_cons in Hj as [-> | Hj];
      [vm_compute in Hg; injection Hg as <-; lia |].
    apply elem_of_cons in Hj as [-> | Hj];
      [vm_compute in Hg; injection Hg as <-; lia |].
    apply elem_of_cons in Hj as [-> | Hj];
      [vm_compute in Hg; discriminate | inversion Hj]. }
  split.
  - apply (proj1 (proj2 scroll_spy_default_when_none_qualify)). exact H.
  - apply (proj2 (proj2 scroll_spy_default_when_none_qualify)).
    constructor; [exact H | constructor].
Defined.

(** C8 — Missing-region robustness. A configured identifier for which
    the document has no element is left out of the positions, so the
    section that is picked and the state after the handler are those of
    the list without that identifier; the handler is a total function
    and has no failing case. *)
Theorem scroll_spy_skips_missing_region doc offset active i before after :
  getElementById doc i = None ->
  positions doc (before ++ i :: after) = positions doc (before ++ after)
  /\ current doc (before ++ i :: after) offset
     = current doc (before ++ after) offset
  /\ handler doc (before ++ i :: after) offset active
     = handler doc (before ++ after) offset active.
Proof.
  intros Hnone.
  assert (Hpos : positions doc (before ++ i :: after)
                 = positions doc (before ++ after)).
  { rewrite !positions_app. f_equal. unfold positions. simpl.
    by rewrite Hnone. }
  unfold handler, current. rewrite Hpos. done.
Qed.

Lemma scroll_spy_skips_missing_region_witness :
  handler Sample.layout_about_skills (["about"] ++ "gallery" :: ["skills"]) 120 "about"
  = handler Sample.layout_about_skills (["about"] ++ ["skills"]) 120 "about".
Proof.
  apply (scroll_spy_skips_missing_region Sample.layout_about_skills 120 "about"
           "gallery" ["about"] ["skills"]).
  vm_compute. reflexivity.
Defined.

(** C10 — Empty configuration. With an empty list of sections the state
    starts as the empty string and stays the empty string through every
    sequence of runs of the handler, and it is not a member of the
    list; the active identifier is a member of the configured list at
    every threshold and sequence of layouts exactly when the list is
    not empty. *)
Theorem scroll_spy_empty_configuration :
  initial_active [] = ""
  /\ (forall offset docs,
         useScrollSpy [] offset docs = ""
         /\ useScrollSpy [] offset docs ∉ ([] : list string))
  /\ (forall ids,
         (forall offset docs, useScrollSpy ids offset docs ∈ ids)
         <-> ids <> []).
Proof.
  split; [done |]. split.
  - intros offset docs. split; [apply useScrollSpy_nil |].
    intros H. inversion H.
  - intros ids. split.
    + intros H ->. specialize (H 0 []). inversion H.
    + destruct ids as [|i ids]; [done |]. intros _ offset docs.
      apply useScrollSpy_member.
Qed.

Lemma scroll_spy_empty_configuration_witness :
  useScrollSpy ["top"; "about"] 140 [Sample.layout_all_below]
    ∈ ["top"; "about"].
Proof.
  apply (proj2 (proj2 (proj2 scroll_spy_empty_configuration)
                  ["top"; "about"])).
  discriminate.
Defined.

End ScrollSpyClaims.

(** ** The command palette: search *)
Section PaletteSearch.
Import Palette.
Implicit Types (sections : list Section) (projects : list Project).

Lemma includes_empty s : JS.includes s "" = true.
Proof. by destruct s. Qed.

Lemma keep_includes query x :
  keep query x = JS.includes (JS.toLowerCase (label x)) query.
Proof.
  unfold keep. destruct query; simpl JS.truthy; cbv iota; [| done].
  by rewrite includes_empty.
Qed.

Lemma filter_keep_empty (l : list Item) : List.filter (keep "") l = l.
Proof. induction l as [|x l IH]; simpl; [done | by rewrite IH]. Qed.

Lemma results_unfold q sections projects :
  results q sections projects =
  take 10
    (List.filter (keep (JS.toLowerCase (JS.trim q))) (map section_item sections)
     ++ List.filter (keep (JS.toLowerCase (JS.trim q)))
          (map project_item projects)).
Proof. reflexivity. Qed.

(** C3 — Search with the empty query. Every section and every project
    passes the filter: the result is the sections followed by the
    projects, each group in input order, cut at ten entries; when the
    two lists hold at most ten entries together, all of them are
    returned; with two sections and one project all three are
    returned. *)
Theorem search_empty_query_keeps_all :
  (forall sections projects,
      results "" sections projects =
      take 10 (map section_item sections ++ map project_item projects))
  /\ (forall sections projects,
         (length sections + length projects <= 10)%nat ->
         results "" sections projects =
         map section_item sections ++ map project_item projects)
  /\ results "" [Sample.about; Sample.skills] [Sample.portfolio] =
     [section_item Sample.about; section_item Sample.skills;
      project_item Sample.portfolio].
Proof.
  assert (H : forall sections projects,
    results "" sections projects =
    take 10 (map section_item sections ++ map project_item projects)).
  { intros. rewrite results_unfold. simpl JS.toLowerCase.
    by rewrite !filter_keep_empty. }
  split; [exact H |]. split; [| reflexivity].
  intros sections projects Hlen. rewrite H. apply take_ge.
  rewrite length_app, !length_map. lia.
Qed.

Lemma search_empty_query_keeps_all_witness :
  results "" [Sample.home; Sample.about] [Sample.portfolio] =
  map section_item [Sample.home; Sample.about]
  ++ map project_item [Sample.portfolio].
Proof.
  apply (proj1 (proj2 search_empty_query_keeps_all)). simpl. lia.
Defined.

(** C4 — Search truncation. The result never has more than ten entries;
    its length is the smaller of ten and the number of candidates that
    pass the filter, so with ten or more of them exactly ten are
    returned; the result is the first entries of the matching sections
    in input order, followed by the first entries of the matching
    projects in input order, the rest being dropped. Fifteen matching
    candidates (eight sections, seven projects) give the eight sections
    and the first two projects. *)
Theorem search_truncates_at_ten :
  (forall q sections projects,
      let query := JS.toLowerCase (JS.trim q) in
      let sec := List.filter (keep query) (map section_item sections) in
      let proj := List.filter (keep query) (map project_item projects) in
      (length (results q sections projects) <= 10)%nat
      /\ length (results q sections projects)
         = Nat.min 10 (length sec + length proj)
      /\ ((10 <= length sec + length proj)%nat ->
          length (results q sections projects) = 10%nat)
      /\ results q sections projects
         = take 10 sec ++ take (10 - length sec) proj)
  /\ results "A" Sample.eight_sections Sample.seven_projects =
     map section_item Sample.eight_sections
     ++ map project_item (take 2 Sample.seven_projects).
Proof.
  split; [| vm_compute; reflexivity].
  intros q sections projects query sec proj.
  assert (Hlen : length (results q sections projects)
                 = Nat.min 10 (length sec + length proj)).
  { rewrite results_unfold. fold query sec proj.
    by rewrite length_take, length_app. }
  split; [lia |]. split; [exact Hlen |]. split; [lia |].
  rewrite results_unfold. fold query sec proj. apply take_app.
Qed.

Lemma search_truncates_at_ten_witness :
  length (results "A" Sample.eight_sections Sample.seven_projects) = 10%nat.
Proof.
  apply (proj1 search_truncates_at_ten "A" Sample.eight_sections
           Sample.seven_projects).
  vm_compute. lia.
Defined.

(** C5 — Search normalization. The query is trimmed, then lowercased; a
    candidate passes the filter exactly when its lowercased label (for a
    project, its name) contains the normalized query as a substring, and
    the result is the first ten of the candidates that pass. The query
    PORT against the section Home and the project Interactive Portfolio
    Website returns the project alone. *)
Theorem search_normalizes_and_matches_substring :
  (forall q x,
      keep (JS.toLowerCase (JS.trim q)) x =
      JS.includes (JS.toLowerCase (label x)) (JS.toLowerCase (JS.trim q)))
  /\ (forall q sections projects,
         let contains := fun x : Item =>
           JS.includes (JS.toLowerCase (label x))
             (JS.toLowerCase (JS.trim q)) in
         results q sections projects =
         take 10 (List.filter contains (map section_item sections)
                  ++ List.filter contains (map project_item projects)))
  /\ results "PORT" [Sample.home] [Sample.portfolio] =
     [project_item Sample.portfolio]
  /\ results "  PoRt " [Sample.home] [Sample.portfolio] =
     [project_item Sample.portfolio].
Proof.
  split; [intros; apply keep_includes |].
  split; [| split; vm_compute; reflexivity].
  intros q sections projects contains. rewrite results_unfold.
  f_equal. f_equal; apply filter_ext; intros x; apply keep_includes.
Qed.

End PaletteSearch.

(** ** The command palette: life cycle of the overlay *)
Section PaletteOverlay.
Import Palette.
Implicit Types (s : State) (ev : Event) (evs : list Event).

Lemma step_closed_query_empty s ev :
  (open s = false -> q s = "") ->
  open (step s ev) = false -> q (step s ev) = "".
Proof.
  destruct s as [[|] text], ev; simpl; intros H;
    first [done | by intros _; apply H | discriminate].
Qed.

Lemma foldl_step_closed_query_empty evs s :
  (open s = false -> q s = "") ->
  open (foldl step s evs) = false -> q (foldl step s evs) = "".
Proof.
  revert s. induction evs as [|ev evs IH]; intros s Hs; [done |].
  simpl. by apply IH, step_closed_query_empty.
Qed.

(** While the overlay is closed the query text is empty. *)
Lemma run_closed_query_empty evs :
  open (run evs) = false -> q (run evs) = "".
Proof. apply foldl_step_closed_query_empty. reflexivity. Qed.

(** An event that opens the closed overlay keeps the query text. *)
Lemma step_opening_keeps_query s ev :
  open s = false -> open (step s ev) = true -> q (step s ev) = q s.
Proof.
  destruct s as [[|] text], ev; simpl; intros Hc Ho;
    first [done | discriminate].
Qed.

(** C9 — Overlay query reset. After any sequence of events from mount,
    whenever an event takes the overlay from closed to open, the query
    text of the opened overlay is the empty string, whatever was typed
    before the overlay was last closed: the text was reset when the
    overlay closed and is empty for as long as it stays closed. *)
Theorem overlay_opens_with_empty_query evs ev :
  open (run evs) = false ->
  open (step (run evs) ev) = true ->
  q (run evs) = "" /\ q (step (run evs) ev) = "".
Proof.
  intros Hclosed Hopen.
  pose proof (run_closed_query_empty evs Hclosed) as Hq.
  split; [exact Hq |].
  by rewrite (step_opening_keeps_query _ _ Hclosed Hopen).
Qed.

Lemma overlay_opens_with_empty_query_witness :
  q (run [Shortcut; Input "port"]) = "port"
  /\ q (run [Shortcut; Input "port"; Escape]) = ""
  /\ q (step (run [Shortcut; Input "port"; Escape]) SearchButton) = "".
Proof.
  split; [reflexivity |].
  apply (overlay_opens_with_empty_query
           [Shortcut; Input "port"; Escape] SearchButton); reflexivity.
Defined.

End PaletteOverlay.

(** ** Theme *)
Section ThemeClaims.

Lemma theme_effect_slot d (ls : gmap string string) :
  Theme.localStorage (Theme.theme_effect d ls) !! "theme"
  = Some (if d then "dark" else "light").
Proof. unfold Theme.theme_effect. simpl. apply lookup_insert_eq. Qed.

Lemma mount_dark (ls : gmap string string) media :
  Theme.dark (Theme.mount ls media) = Theme.resolve ls media.
Proof. unfold Theme.mount. by destruct (Theme.resolve ls media). Qed.

Lemma resolve_written (d : bool) (ls : gmap string string) media :
  ls !! "theme" = Some (if d then "dark" else "light") ->
  Theme.resolve ls media = d.
Proof. unfold Theme.resolve. intros ->. by destruct d. Qed.




End ThemeClaims.

(** * Further properties of the code *)

(** ** Strings *)
Section StringFacts.
Implicit Types (s t u sub : string) (c : ascii).

Lemma append_cons c s t : String c s +:+ t = String c (s +:+ t).
Proof. reflexivity. Qed.


Lemma append_nil_r s : s +:+ "" = s.
Proof.
  induction s as [|c s IH]; [done |]. by rewrite append_cons, IH.
Qed.

Lemma append_assoc s t u : (s +:+ t) +:+ u = s +:+ t +:+ u.
Proof.
  induction s as [|c s IH]; [done |]. by rewrite !append_cons, IH.
Qed.

Lemma prefix_spec sub s :
  String.prefix sub s = true <-> exists b, s = sub +:+ b.
Proof.
  revert s. induction sub as [|c sub IH]; intros s.
  - destruct s; simpl; split; eauto.
  - destruct s as [|d s]; simpl.
    + split; [discriminate | intros [b [=]]].
    + destruct (ascii_dec c d) as [-> | Hne].
      * split.
        -- intros [b Hb]%IH. exists b. by rewrite append_cons, Hb.
        -- intros [b Hb]. apply IH. exists b.
           rewrite append_cons in Hb. congruence.
      * split; [discriminate |]. intros [b Hb].
        rewrite append_cons in Hb. congruence.
Qed.

Lemma includes_spec s sub :
  JS.includes s sub = true <-> exists a b, s = a +:+ sub +:+ b.
Proof.
  induction s as [|c s IH]; cbn [JS.includes].
  - rewrite orb_false_r. split.
    + intros [b Hb]%prefix_spec. by exists "", b.
    + intros ([|d a] & b & H); [apply prefix_spec; by exists b |].
      rewrite append_cons in H. discriminate.
  - rewrite orb_true_iff. split.
    + intros [[b Hb]%prefix_spec | (a & b & ->)%IH]; [by exists "", b |].
      by exists (String c a), b.
    + intros ([|d a] & b & H); [left; apply prefix_spec; by exists b |].
      right. apply IH. rewrite append_cons in H. injection H as -> ->.
      by exists a, b.
Qed.


Lemma lower_char_idem c : JS.lower_char (JS.lower_char c) = JS.lower_char c.
Proof.
  destruct c as [[] [] [] [] [] [] [] []]; vm_compute; reflexivity.
Qed.

Lemma is_white_lower_char c : JS.is_white (JS.lower_char c) = JS.is_white c.
Proof.
  destruct c as [[] [] [] [] [] [] [] []]; vm_compute; reflexivity.
Qed.

Lemma toLowerCase_idem s : JS.toLowerCase (JS.toLowerCase s) = JS.toLowerCase s.
Proof.
  induction s as [|c s IH]; simpl; [done |]. by rewrite lower_char_idem, IH.
Qed.

Lemma truthy_toLowerCase s : JS.truthy (JS.toLowerCase s) = JS.truthy s.
Proof. by destruct s. Qed.

Lemma trimStart_toLowerCase s :
  JS.trimStart (JS.toLowerCase s) = JS.toLowerCase (JS.trimStart s).
Proof.
  induction s as [|c s IH]; simpl; [done |].
  rewrite is_white_lower_char. by destruct (JS.is_white c).
Qed.

Lemma trimEnd_toLowerCase s :
  JS.trimEnd (JS.toLowerCase s) = JS.toLowerCase (JS.trimEnd s).
Proof.
  induction s as [|c s IH]; simpl; [done |].
  rewrite is_white_lower_char, IH, truthy_toLowerCase.
  by destruct (JS.is_white c && negb (JS.truthy (JS.trimEnd s))).
Qed.

(** Trimming and lowercasing commute. *)
Lemma trim_toLowerCase s :
  JS.trim (JS.toLowerCase s) = JS.toLowerCase (JS.trim s).
Proof. unfold JS.trim. by rewrite trimStart_toLowerCase, trimEnd_toLowerCase. Qed.

Lemma trimStart_white_append w s :
  Util.all_white w = true -> JS.trimStart (w +:+ s) = JS.trimStart s.
Proof.
  induction w as [|c w IH]; [done |]. rewrite append_cons. simpl.
  intros [-> Hw]%andb_true_iff. by apply IH.
Qed.

Lemma trimEnd_white w : Util.all_white w = true -> JS.trimEnd w = "".
Proof.
  induction w as [|c w IH]; simpl; [done |].
  intros [-> Hw]%andb_true_iff. by rewrite (IH Hw).
Qed.

Lemma trimEnd_append_white s w :
  Util.all_white w = true -> JS.trimEnd (s +:+ w) = JS.trimEnd s.
Proof.
  intros Hw. induction s as [|c s IH]; [by apply trimEnd_white |].
  rewrite append_cons. simpl. by rewrite IH.
Qed.

Lemma all_white_trimStart w : Util.all_white w = true -> JS.trimStart w = "".
Proof.
  induction w as [|c w IH]; simpl; [done |].
  intros [-> Hw]%andb_true_iff. by apply IH.
Qed.

Lemma trimStart_append_white s w :
  Util.all_white w = true ->
  JS.trimStart (s +:+ w) = JS.trimStart s +:+ w
  \/ JS.trimStart s = "" /\ JS.trimStart (s +:+ w) = "".
Proof.
  intros Hw. induction s as [|c s IH].
  - right. split; [done |]. by apply all_white_trimStart.
  - rewrite append_cons. simpl. destruct (JS.is_white c); [exact IH | by left].
Qed.

(** White space around a text does not change what [trim] returns. *)
Lemma trim_padding w1 s w2 :
  Util.all_white w1 = true -> Util.all_white w2 = true ->
  JS.trim (w1 +:+ s +:+ w2) = JS.trim s.
Proof.
  intros H1 H2. unfold JS.trim. rewrite (trimStart_white_append _ _ H1).
  destruct (trimStart_append_white s w2 H2) as [-> | [-> ->]].
  - by apply trimEnd_append_white.
  - done.
Qed.

End StringFacts.

(** ** The command palette: more on [results] *)
Section PaletteSearchMore.
Import Palette.
Implicit Types (sections : list Section) (projects : list Project).
Implicit Types (r x : Item).

(** The query as the filter sees it. *)
Let norm (q : string) : string := JS.toLowerCase (JS.trim q).

Lemma List_filter_sublist {A} (f : A -> bool) (l : list A) :
  List.filter f l `sublist_of` l.
Proof.
  induction l as [|a l IH]; simpl; [constructor |].
  destruct (f a); by constructor.
Qed.

Lemma elem_of_List_filter {A} (f : A -> bool) (l : list A) a :
  a ∈ List.filter f l <-> a ∈ l /\ f a = true.
Proof. by rewrite !list_elem_of_In, filter_In. Qed.

Lemma elem_of_List_map {A B} (f : A -> B) (l : list A) b :
  b ∈ map f l <-> exists a, a ∈ l /\ b = f a.
Proof.
  rewrite list_elem_of_In, in_map_iff. split.
  - intros (a & <- & Ha). exists a. by rewrite list_elem_of_In.
  - intros (a & Ha & ->). exists a. by rewrite <- list_elem_of_In.
Qed.

Lemma List_filter_nil {A} (f : A -> bool) (l : list A) :
  List.filter f l = [] <-> forall a, a ∈ l -> f a = false.
Proof.
  induction l as [|a l IH]; simpl.
  - split; [intros _ a Ha; inversion Ha | done].
  - destruct (f a) eqn:Ha.
    + split; [discriminate |]. intros H.
      specialize (H a (list_elem_of_here _ _)). congruence.
    + rewrite IH. split.
      * intros H b [-> | Hb]%elem_of_cons; auto.
      * intros H b Hb. apply H. by right.
Qed.

Lemma results_sublist q sections projects :
  results q sections projects `sublist_of`
  map section_item sections ++ map project_item projects.
Proof.
  rewrite results_unfold. etrans; [apply sublist_take |].
  apply sublist_app; apply List_filter_sublist.
Qed.

Lemma elem_of_results q sections projects r :
  r ∈ results q sections projects ->
  ((exists s, s ∈ sections /\ r = section_item s)
   \/ (exists p, p ∈ projects /\ r = project_item p))
  /\ keep (norm q) r = true.
Proof.
  rewrite results_unfold. intros Hr.
  apply (sublist_subseteq _ _ (sublist_take _ _)) in Hr.
  apply elem_of_app in Hr as [Hr | Hr];
    apply elem_of_List_filter in Hr as [Hr Hk];
    apply elem_of_List_map in Hr; (split; [| exact Hk]); [by left | by right].
Qed.

(** X1 — Every entry of [results] is the item of one of the given
    sections or projects, and its lowercased label contains the
    normalized query; [results] is empty (the overlay then shows "No
    results.") exactly when no section label and no project name
    contains the normalized query. *)
Theorem search_results_are_matching_candidates q sections projects :
  (forall r, r ∈ results q sections projects ->
     ((exists s, s ∈ sections /\ r = section_item s)
      \/ (exists p, p ∈ projects /\ r = project_item p))
     /\ JS.includes (JS.toLowerCase (label r))
          (JS.toLowerCase (JS.trim q)) = true)
  /\ (results q sections projects = [] <->
      (forall s, s ∈ sections ->
         JS.includes (JS.toLowerCase (s_label s))
           (JS.toLowerCase (JS.trim q)) = false)
      /\ (forall p, p ∈ projects ->
            JS.includes (JS.toLowerCase (p_name p))
              (JS.toLowerCase (JS.trim q)) = false)).
Proof.
  split.
  - intros r Hr. apply elem_of_results in Hr as [Hc Hk].
    split; [exact Hc |]. by rewrite <- keep_includes.
  - rewrite results_unfold.
    set (sec := List.filter _ (map section_item sections)).
    set (proj := List.filter _ (map project_item projects)).
    assert (Htake : take 10 (sec ++ proj) = [] <-> sec = [] /\ proj = []).
    { destruct sec, proj; simpl; split; intros H;
        first [done | discriminate | destruct H; discriminate]. }
    rewrite Htake. unfold sec, proj. rewrite !List_filter_nil.
    split; intros [Hs Hp]; split.
    + intros s Hin. rewrite <- (keep_includes _ (section_item s)).
      apply Hs, elem_of_List_map. eauto.
    + intros p Hin. rewrite <- (keep_includes _ (project_item p)).
      apply Hp, elem_of_List_map. eauto.
    + intros x (s & Hin & ->)%elem_of_List_map.
      rewrite keep_includes. by apply Hs.
    + intros x (p & Hin & ->)%elem_of_List_map.
      rewrite keep_includes. by apply Hp.
Qed.

Lemma search_results_are_matching_candidates_witness :
  JS.includes (JS.toLowerCase (label (project_item Sample.portfolio)))
    (JS.toLowerCase (JS.trim "PORT")) = true.
Proof.
  apply (proj1 (search_results_are_matching_candidates "PORT"
                  [Sample.home] [Sample.portfolio])
           (project_item Sample.portfolio)).
  vm_compute. constructor.
Defined.

(** X2 — With at most ten candidates in all, nothing is cut: the result
    is every matching section followed by every matching project. The
    app passes seven sections (all but the one with the identifier top)
    and three projects, so for every query the palette of the app shows
    every match. *)
Theorem search_within_cap_drops_nothing :
  (forall q sections projects,
      (length sections + length projects <= 10)%nat ->
      results q sections projects =
      List.filter (keep (JS.toLowerCase (JS.trim q))) (map section_item sections)
      ++ List.filter (keep (JS.toLowerCase (JS.trim q)))
           (map project_item projects))
  /\ (forall q,
         results q (App.palette_sections App.sections) App.projects =
         List.filter (keep (JS.toLowerCase (JS.trim q)))
           (map section_item (App.palette_sections App.sections))
         ++ List.filter (keep (JS.toLowerCase (JS.trim q)))
              (map project_item App.projects)).
Proof.
  assert (H : forall q sections projects,
    (length sections + length projects <= 10)%nat ->
    results q sections projects =
    List.filter (keep (JS.toLowerCase (JS.trim q))) (map section_item sections)
    ++ List.filter (keep (JS.toLowerCase (JS.trim q)))
         (map project_item projects)).
  { intros q sections projects Hlen. rewrite results_unfold. apply take_ge.
    rewrite length_app.
    pose proof (sublist_length _ _
      (List_filter_sublist (keep (JS.toLowerCase (JS.trim q)))
         (map section_item sections))) as H1.
    pose proof (sublist_length _ _
      (List_filter_sublist (keep (JS.toLowerCase (JS.trim q)))
         (map project_item projects))) as H2.
    rewrite length_map in H1, H2. lia. }
  split; [exact H |]. intros q. apply H. vm_compute. lia.
Qed.

Lemma search_within_cap_drops_nothing_witness :
  results "e" [Sample.home; Sample.about] [Sample.portfolio] =
  List.filter (keep (JS.toLowerCase (JS.trim "e")))
    (map section_item [Sample.home; Sample.about])
  ++ List.filter (keep (JS.toLowerCase (JS.trim "e")))
       (map project_item [Sample.portfolio]).
Proof.
  apply (proj1 search_within_cap_drops_nothing "e"
           [Sample.home; Sample.about] [Sample.portfolio]).
  simpl. lia.
Defined.

(** X3 — The search does not see the case of the query: two queries
    with the same lowercase form give the same results. *)
Theorem search_ignores_query_case q q' sections projects :
  JS.toLowerCase q = JS.toLowerCase q' ->
  results q sections projects = results q' sections projects.
Proof.
  intros H. rewrite !results_unfold.
  by rewrite <- !trim_toLowerCase, H.
Qed.

Lemma search_ignores_query_case_witness :
  results "PORT" [Sample.home] [Sample.portfolio]
  = results "pOrt" [Sample.home] [Sample.portfolio].
Proof.
  apply (search_ignores_query_case "PORT" "pOrt"). reflexivity.
Defined.

(** X4 — White space before and after the query text is ignored; a
    query of white space only gives what the empty query gives. *)
Theorem search_ignores_surrounding_white_space w1 q w2 sections projects :
  Util.all_white w1 = true -> Util.all_white w2 = true ->
  results (w1 +:+ q +:+ w2) sections projects = results q sections projects.
Proof.
  intros H1 H2. rewrite !results_unfold. by rewrite (trim_padding _ _ _ H1 H2).
Qed.

Lemma search_ignores_surrounding_white_space_witness :
  results ("  " +:+ "port" +:+ " ") [Sample.home] [Sample.portfolio]
  = results "port" [Sample.home] [Sample.portfolio].
Proof.
  apply (search_ignores_surrounding_white_space "  " "port" " ");
    reflexivity.
Defined.

End PaletteSearchMore.

(** ** The command palette: typing, keys, selection *)
Section PaletteUse.
Import Palette.
Implicit Types (sections : list Section) (projects : list Project).
Implicit Types (r x : Item) (s t u : string).







Lemma section_keys sections :
  map App.result_key (map section_item sections)
  = map (String.append "section-") (map s_id sections).
Proof. induction sections as [|a l IH]; simpl; [done | by rewrite IH]. Qed.

Lemma project_keys projects :
  map App.result_key (map project_item projects)
  = map (String.append "project-") (map p_id projects).
Proof. induction projects as [|a l IH]; simpl; [done | by rewrite IH]. Qed.

(** X6 — The keys of the result buttons are pairwise different whenever
    the sections have pairwise different identifiers and the projects
    have pairwise different identifiers (a section and a project may
    share an identifier). *)
Theorem result_keys_are_unique q sections projects :
  NoDup (map s_id sections) ->
  NoDup (map p_id projects) ->
  NoDup (map App.result_key (results q sections projects)).
Proof.
  intros Hs Hp.
  apply (sublist_NoDup _
           (map App.result_key
              (map section_item sections ++ map project_item projects))).
  2: { apply (fmap_sublist App.result_key), results_sublist. }
  rewrite map_app, section_keys, project_keys.
  apply NoDup_app. split; [| split].
  - apply (NoDup_fmap_2 (String.append "section-")), Hs.
  - intros k (i & _ & ->)%elem_of_List_map (j & _ & Hj)%elem_of_List_map.
    discriminate.
  - apply (NoDup_fmap_2 (String.append "project-")), Hp.
Qed.

Lemma result_keys_are_unique_witness :
  NoDup (map App.result_key
           (results "" (App.palette_sections App.sections) App.projects)).
Proof.
  apply (result_keys_are_unique ""
           (App.palette_sections App.sections) App.projects).
  - compute_done.
  - compute_done.
Defined.

(** X7 — The palette of the app is given the sections without the one
    whose identifier is top: whatever the query, no section entry of the
    results leads to top. *)
Theorem palette_never_offers_top q sections projects r :
  r ∈ results q (App.palette_sections sections) projects ->
  type r = "section" -> id r <> "top".
Proof.
  intros [[(s & Hs & ->) | (p & _ & ->)] _]%elem_of_results; [| discriminate].
  intros _. apply elem_of_List_filter in Hs as [_ Hne]. simpl.
  apply negb_true_iff, String.eqb_neq in Hne. exact Hne.
Qed.

Lemma palette_never_offers_top_witness :
  id (section_item Sample.about) <> "top".
Proof.
  apply (palette_never_offers_top "" [Sample.home; Sample.about] []
           (section_item Sample.about)); [| reflexivity].
  vm_compute. constructor.
Defined.

End PaletteUse.

(** ** Selecting a result, the keyboard, the navigation *)
Section AppUse.
Import Palette.
Implicit Types (sections : list Section) (projects : list Project).
Implicit Types (doc : ScrollSpy.Document) (r : Item) (e : App.KeyEvent).

Lemma scrollToId_found doc i :
  is_Some (ScrollSpy.getElementById doc i) ->
  App.scrollToId doc i = [ {| App.target := i; App.block := "start" |} ].
Proof. unfold App.scrollToId. by intros [t ->]. Qed.

(** X8 — Selecting a result scrolls to an element of the page. When the
    document has an element for each section given to the palette, the
    element projects, and a wrapper project-<id> for each project, then
    for every query and every entry of the results: a section entry
    scrolls to its own section at once and schedules nothing that
    scrolls; a project entry scrolls to projects at once and, after the
    delay, to the wrapper of the project, centred. The page of the app
    carries all these identifiers for the sections and projects of the
    app. *)
Theorem selection_reaches_its_target :
  (forall doc q sections projects r,
      (forall s, s ∈ sections ->
         is_Some (ScrollSpy.getElementById doc (s_id s))) ->
      is_Some (ScrollSpy.getElementById doc "projects") ->
      (forall p, p ∈ projects ->
         is_Some (ScrollSpy.getElementById doc ("project-" +:+ p_id p))) ->
      r ∈ results q sections projects ->
      (type r = "section"
       /\ App.select_now doc r
          = [ {| App.target := id r; App.block := "start" |} ]
       /\ App.select_later doc r = [])
      \/ (type r = "project"
          /\ App.select_now doc r
             = [ {| App.target := "projects"; App.block := "start" |} ]
          /\ App.select_later doc r
             = [ {| App.target := "project-" +:+ id r;
                    App.block := "center" |} ]))
  /\ (forall s, s ∈ App.palette_sections App.sections ->
        s_id s ∈ App.page_ids App.projects)
  /\ "projects" ∈ App.page_ids App.projects
  /\ (forall p, p ∈ App.projects ->
        "project-" +:+ p_id p ∈ App.page_ids App.projects).
Proof.
  split; [| split; [| split]].
  - intros doc q sections projects r Hsec Hprojects Hproj Hr.
    apply elem_of_results in Hr as [[(s & Hs & ->) | (p & Hp & ->)] _].
    + left. split; [done |]. split; [| done].
      unfold App.select_now. simpl. by apply scrollToId_found, Hsec.
    + right. split; [done |]. unfold App.select_now, App.select_later. simpl.
      split; [by apply scrollToId_found |].
      by destruct (Hproj p Hp) as [t ->].
  - intros s Hs. vm_compute in Hs.
    repeat (apply elem_of_cons in Hs as [-> | Hs]; [compute_done |]).
    inversion Hs.
  - compute_done.
  - intros p Hp. vm_compute in Hp.
    repeat (apply elem_of_cons in Hp as [-> | Hp]; [compute_done |]).
    inversion Hp.
Qed.

Lemma selection_reaches_its_target_witness :
  App.select_now (<["projects" := 400]> (<["project-portfolio" := 450]> ∅))
    (project_item Sample.portfolio)
  = [ {| App.target := "projects"; App.block := "start" |} ]
  /\ App.select_later
       (<["projects" := 100]> (<["project-portfolio" := 150]> ∅))
       (project_item Sample.portfolio)
     = [ {| App.target := "project-portfolio"; App.block := "center" |} ].
Proof.
  split.
  - destruct (proj1 selection_reaches_its_target
      (<["projects" := 400]> (<["project-portfolio" := 450]> ∅))
      "port" [] [Sample.portfolio] (project_item Sample.portfolio))
      as [[H _] | (_ & H & _)].
    + intros s Hs. inversion Hs.
    + vm_compute. eauto.
    + intros p ->%list_elem_of_singleton. vm_compute. eauto.
    + vm_compute. constructor.
    + discriminate H.
    + exact H.
  - destruct (proj1 selection_reaches_its_target
      (<["projects" := 100]> (<["project-portfolio" := 150]> ∅))
      "port" [] [Sample.portfolio] (project_item Sample.portfolio))
      as [[H _] | (_ & _ & H)].
    + intros s Hs. inversion Hs.
    + vm_compute. eauto.
    + intros p ->%list_elem_of_singleton. vm_compute. eauto.
    + vm_compute. constructor.
    + discriminate H.
    + exact H.
Defined.

Lemma escape_is_no_shortcut e :
  App.is_escape e = true -> App.is_shortcut e = false.
Proof.
  unfold App.is_escape, App.is_shortcut. destruct (App.key e) as [k|]; [| done].
  intros ->%String.eqb_eq. apply andb_false_r.
Qed.

(** X9 — What a keydown does to the overlay. Ctrl or Cmd with k or K
    is the shortcut; the shortcut opens the overlay, keeps the query
    text and calls preventDefault; Escape while the overlay is open
    closes it and empties the query, without preventDefault; no event is
    both; every other keydown (any key without Ctrl and Cmd that is not
    Escape, and Escape while closed) leaves the state as it is. *)
Theorem keydown_opens_closes_or_ignores s e :
  (forall k, k = "k" \/ k = "K" ->
     App.key e = Some k -> App.ctrlKey e || App.metaKey e = true ->
     App.is_shortcut e = true)
  /\ (App.is_shortcut e = true ->
      App.keydown s e = ({| open := true; q := q s |}, true))
  /\ (open s = true -> App.is_escape e = true ->
      App.keydown s e = ({| open := false; q := "" |}, false))
  /\ (App.is_shortcut e = false ->
      open s = false \/ App.is_escape e = false ->
      App.keydown s e = (s, false))
  /\ (App.ctrlKey e = false -> App.metaKey e = false ->
      App.is_shortcut e = false).
Proof.
  split; [| split; [| split; [| split]]].
  - intros k [-> | ->] Hk Hmod; unfold App.is_shortcut; by rewrite Hk, Hmod.
  - intros Hs. unfold App.keydown. rewrite Hs.
    assert (App.is_escape e = false) as ->.
    { destruct (App.is_escape e) eqn:He; [| done].
      apply escape_is_no_shortcut in He. congruence. }
    rewrite andb_false_r. by destruct s as [[|] text].
  - intros Ho He. unfold App.keydown.
    rewrite (escape_is_no_shortcut _ He), Ho, He. by destruct s as [[|] text].
  - intros Hs H. unfold App.keydown. rewrite Hs.
    by destruct H as [-> | ->]; rewrite ?andb_false_r.
  - intros Hc Hm. unfold App.is_shortcut. by rewrite Hc, Hm.
Qed.

Lemma keydown_opens_closes_or_ignores_witness :
  App.keydown (run [Shortcut; Input "port"])
    {| App.key := Some "Escape"; App.ctrlKey := false; App.metaKey := false |}
  = ({| open := false; q := "" |}, false).
Proof.
  apply (proj1 (proj2 (proj2 (keydown_opens_closes_or_ignores
           (run [Shortcut; Input "port"])
           {| App.key := Some "Escape"; App.ctrlKey := false;
              App.metaKey := false |})))); reflexivity.
Defined.

Lemma nav_current_unique act sections :
  NoDup (map s_id sections) ->
  (act ∈ map s_id sections ->
   exists s, App.nav_current act sections = [s] /\ s_id s = act)
  /\ (act ∉ map s_id sections -> App.nav_current act sections = []).
Proof.
  induction sections as [|a l IH]; simpl.
  - intros _. split; [intros H; inversion H | done].
  - intros [Ha Hl]%NoDup_cons. destruct (IH Hl) as [IH1 IH2].
    destruct (String.eqb_spec act (s_id a)) as [-> | Hne].
    + split; [| intros H; exfalso; apply H; left].
      intros _. exists a. by rewrite (IH2 Ha).
    + split.
      * intros [? | Hin]%elem_of_cons; [done | by apply IH1].
      * intros Hnot. apply IH2. intros Hin. apply Hnot. by right.
Qed.

(** X10 — Exactly one navigation button is drawn as current. For a
    non-empty list of sections with pairwise different identifiers, at
    every sequence of layouts the sections whose button is drawn as
    current are exactly one, the section with the active identifier. *)
Theorem nav_marks_exactly_one sections docs :
  sections <> [] -> NoDup (map s_id sections) ->
  exists s, App.nav_current (App.active sections docs) sections = [s]
            /\ s_id s = App.active sections docs.
Proof.
  intros Hne Hnd. apply (nav_current_unique _ _ Hnd).
  unfold App.active. destruct sections as [|a l]; [done |].
  apply useScrollSpy_member.
Qed.

Lemma nav_marks_exactly_one_witness :
  exists s,
    App.nav_current (App.active App.sections [Sample.layout_about_skills])
      App.sections = [s]
    /\ s_id s = App.active App.sections [Sample.layout_about_skills].
Proof.
  apply (nav_marks_exactly_one App.sections [Sample.layout_about_skills]).
  - discriminate.
  - compute_done.
Defined.

End AppUse.

(** ** The active-section tracker: ties, history *)
Section ScrollSpyMore.
Import ScrollSpy.
Implicit Types (doc : Document) (ids before after : list string) (offset : Z).
Implicit Types (p x : Position) (l : list Position).

Lemma split_at_first_occurrence {A} (a b : list A) (x p : A)
    (l1 l2 : list A) :
  a ++ x :: b = l1 ++ p :: l2 -> x ∉ l1 -> p ∈ a \/ p = x.
Proof.
  revert l1. induction a as [|y a IH]; intros [|z l1]; simpl; intros [= ? E] Hx.
  - by right.
  - subst. exfalso. apply Hx. left.
  - subst. left. left.
  - subst. destruct (IH l1 E) as [? | ?]; [| by left; right | by right].
    intros Hin. apply Hx. by right.
Qed.

Lemma qualifying_app doc before after offset :
  List.filter (fun p => top p <=? offset) (positions doc (before ++ after))
  = List.filter (fun p => top p <=? offset) (positions doc before)
    ++ List.filter (fun p => top p <=? offset) (positions doc after).
Proof. by rewrite positions_app, List.filter_app. Qed.

(** X11 — Which section wins. If a configured section has its top edge
    at or below the threshold, every qualifying section listed before it
    has a strictly smaller top edge, and every qualifying section listed
    after it has a top edge that is not larger, then a run of the
    handler makes that section active: among sections with the same
    largest top edge the one listed first wins. *)
Theorem scroll_spy_first_listed_largest_wins
    doc offset active before i after t :
  getElementById doc i = Some t -> t <= offset ->
  (forall j u, j ∈ before -> getElementById doc j = Some u ->
               u <= offset -> u < t) ->
  (forall j u, j ∈ after -> getElementById doc j = Some u ->
               u <= offset -> u <= t) ->
  handler doc (before ++ i :: after) offset active = i.
Proof.
  intros Hi Hle Hbefore Hafter.
  set (x := {| id := i; top := t |}).
  set (keepq := fun p => top p <=? offset).
  assert (HL : List.filter keepq (positions doc (before ++ i :: after))
               = List.filter keepq (positions doc before)
                 ++ x :: List.filter keepq (positions doc after)).
  { unfold keepq. rewrite qualifying_app. f_equal.
    change (i :: after) with ([i] ++ after). rewrite qualifying_app. f_equal.
    unfold positions. simpl. rewrite Hi. simpl.
    by destruct (Z.leb_spec t offset); [| lia]. }
  destruct (current doc (before ++ i :: after) offset) as [p|] eqn:Hcur.
  2: { unfold current in Hcur. apply head_sort_nil in Hcur.
       fold keepq in Hcur. rewrite HL in Hcur.
       by apply app_nil in Hcur as [_ ?]. }
  rewrite (handler_Some _ _ _ _ _ Hcur).
  unfold current in Hcur. fold keepq in Hcur.
  pose proof (head_sort_first_max _ _ Hcur) as (l1 & l2 & Hsplit & H1 & H2).
  assert (Hx : x ∈ List.filter keepq (positions doc (before ++ i :: after))).
  { rewrite HL. apply elem_of_app. right. left. }
  destruct (head_sort_max _ _ _ Hcur Hx) as [Hp Hxp]. simpl in Hxp.
  assert (Hsmall : forall r, r ∈ List.filter keepq (positions doc before) ->
                             top r < t).
  { intros r [[Hin Hg]%elem_of_positions Hr]%elem_of_qualifying. eauto. }
  assert (Htop : top p = t).
  { rewrite HL in Hp. apply elem_of_app in Hp as [Hp | Hp].
    - apply Hsmall in Hp. lia.
    - apply elem_of_cons in Hp as [-> | Hp]; [done |].
      apply elem_of_qualifying in Hp as [[Hin Hg]%elem_of_positions Hr].
      specialize (Hafter _ _ Hin Hg Hr). lia. }
  rewrite HL in Hsplit.
  destruct (split_at_first_occurrence _ _ _ _ _ _ Hsplit) as [Hin | ->].
  - intros Hin. rewrite Forall_forall in H1. apply H1 in Hin. simpl in Hin. lia.
  - apply Hsmall in Hin. lia.
  - done.
Qed.

Lemma scroll_spy_first_listed_largest_wins_witness :
  handler (<["a" := 30]> (<["b" := 30]> (<["c" := -5]> ∅)))
    (["c"] ++ "a" :: ["b"]) 120 "c" = "a".
Proof.
  apply (scroll_spy_first_listed_largest_wins _ 120 "c" ["c"] "a" ["b"] 30).
  - vm_compute. reflexivity.
  - lia.
  - intros j u ->%list_elem_of_singleton Hg _.
    vm_compute in Hg. injection Hg as <-. lia.
  - intros j u ->%list_elem_of_singleton Hg _.
    vm_compute in Hg. injection Hg as <-. lia.
Defined.

Lemma foldl_handler_last doc ids offset docs a :
  (forall a1 a2, handler doc ids offset a1 = handler doc ids offset a2) ->
  foldl (fun act d => handler d ids offset act) a (docs ++ [doc])
  = handler doc ids offset a.
Proof.
  intros H. rewrite foldl_app. simpl. apply H.
Qed.

(** X12 — The handler forgets the past. At a layout where some
    configured section qualifies, the state after the handler does not
    depend on the state before it, so after any scrolling the active
    section is the one a fresh mount at the last layout would give; and
    at every layout a second run of the handler changes nothing. *)
Theorem scroll_spy_depends_on_last_layout doc ids offset :
  (forall a, handler doc ids offset (handler doc ids offset a)
             = handler doc ids offset a)
  /\ ((exists i t, i ∈ ids /\ getElementById doc i = Some t /\ t <= offset) ->
      (forall a1 a2, handler doc ids offset a1 = handler doc ids offset a2)
      /\ (forall docs, useScrollSpy ids offset (docs ++ [doc])
                       = useScrollSpy ids offset [doc])).
Proof.
  split.
  - intros a. destruct (current doc ids offset) as [p|] eqn:E.
    + by rewrite !(handler_Some _ _ _ _ _ E).
    + by rewrite !(handler_None _ _ _ _ E).
  - intros (i & t & Hi & Hg & Hle).
    assert (H : forall a1 a2,
      handler doc ids offset a1 = handler doc ids offset a2).
    { intros a1 a2. destruct (current doc ids offset) as [p|] eqn:E.
      - by rewrite !(handler_Some _ _ _ _ _ E).
      - pose proof (current_None _ _ _ E {| id := i; top := t |}) as Hlt.
        simpl in Hlt. enough (offset < t) by lia.
        apply Hlt. by apply elem_of_positions. }
    split; [exact H |]. intros docs. unfold useScrollSpy.
    rewrite (foldl_handler_last _ _ _ _ _ H). simpl. apply H.
Qed.

Lemma scroll_spy_depends_on_last_layout_witness :
  useScrollSpy ["about"; "skills"] 120
    ([Sample.layout_all_below; ∅] ++ [Sample.layout_about_skills])
  = useScrollSpy ["about"; "skills"] 120 [Sample.layout_about_skills].
Proof.
  apply (proj2 (scroll_spy_depends_on_last_layout
                  Sample.layout_about_skills ["about"; "skills"] 120)).
  exists "about", (-50). split; [constructor |].
  split; [vm_compute; reflexivity | lia].
Defined.

End ScrollSpyMore.

(** ** The theme over a visit *)
Section ThemeMore.
Implicit Types (ls : gmap string string) (media : option bool).
Implicit Types (s : Theme.State) (acts : list Visit.Action).

Lemma theme_effect_other (d : bool) ls k :
  k <> "theme" ->
  Theme.localStorage (Theme.theme_effect d ls) !! k = ls !! k.
Proof. intros Hk. unfold Theme.theme_effect. simpl. by apply lookup_insert_ne. Qed.

Lemma mount_is_effect ls media :
  exists ls', Theme.mount ls media
              = Theme.theme_effect (Theme.resolve ls media) ls'
              /\ forall k, k <> "theme" -> ls' !! k = ls !! k.
Proof.
  unfold Theme.mount. destruct (Theme.resolve ls media); simpl Bool.eqb;
    cbv iota.
  - eexists. split; [reflexivity |]. intros k Hk. by apply theme_effect_other.
  - by exists ls.
Qed.

Lemma act_is_effect s a :
  exists d ls', Visit.act s a = Theme.theme_effect d ls'
                /\ forall k, k <> "theme" ->
                             ls' !! k = Theme.localStorage s !! k.
Proof.
  destruct a as [|media]; simpl.
  - by exists (negb (Theme.dark s)), (Theme.localStorage s).
  - unfold Theme.reload.
    destruct (mount_is_effect (Theme.localStorage s) media) as (ls' & -> & H).
    eauto.
Qed.

Lemma session_is_effect ls media acts :
  exists d ls', Visit.session ls media acts = Theme.theme_effect d ls'
                /\ forall k, k <> "theme" -> ls' !! k = ls !! k.
Proof.
  unfold Visit.session.
  induction acts as [|a acts IH] using rev_ind; simpl.
  - destruct (mount_is_effect ls media) as (ls' & -> & H). eauto.
  - rewrite foldl_app. simpl.
    destruct IH as (d & ls' & -> & H).
    destruct (act_is_effect (Theme.theme_effect d ls') a) as (d' & ls'' & -> & H').
    exists d', ls''. split; [done |]. intros k Hk.
    rewrite (H' k Hk), <- (H k Hk). by apply theme_effect_other.
Qed.

(** X13 — The stored value and the document class follow the theme. At
    every moment of a visit (after the first load and after each press
    of the theme button or reload), the document root carries the class
    dark exactly when the theme is dark, and the slot theme of the store
    holds the word for the current theme, dark or light, whatever it
    held before the visit. *)
Theorem theme_store_and_class_in_sync ls media acts :
  let s := Visit.session ls media acts in
  Theme.root_dark s = Theme.dark s
  /\ Theme.localStorage s !! "theme"
     = Some (if Theme.dark s then "dark" else "light").
Proof.
  destruct (session_is_effect ls media acts) as (d & ls' & -> & _).
  split; [done | apply theme_effect_slot].
Qed.

(** X14 — The theme code writes the slot theme only: every other key of
    the store holds after any visit what it held before. *)
Theorem theme_touches_only_its_slot ls media acts k :
  k <> "theme" ->
  Theme.localStorage (Visit.session ls media acts) !! k = ls !! k.
Proof.
  intros Hk. destruct (session_is_effect ls media acts) as (d & ls' & -> & H).
  rewrite theme_effect_other by done. by apply H.
Qed.

Lemma theme_touches_only_its_slot_witness :
  Theme.localStorage
    (Visit.session (<["lang" := "en"]> ∅) (Some true)
       [Visit.Toggle; Visit.Reload None]) !! "lang"
  = (<["lang" := "en"]> ∅ : gmap string string) !! "lang".
Proof.
  apply (theme_touches_only_its_slot (<["lang" := "en"]> ∅) (Some true)
           [Visit.Toggle; Visit.Reload None] "lang").
  discriminate.
Defined.

Lemma foldl_act_dark acts s :
  Theme.localStorage s !! "theme"
  = Some (if Theme.dark s then "dark" else "light") ->
  Theme.dark (foldl Visit.act s acts)
  = if Nat.even (Visit.toggles acts) then Theme.dark s
    else negb (Theme.dark s).
Proof.
  revert s. induction acts as [|[|media] acts IH]; intros s Hs; [done | |].
  - cbn [foldl Visit.toggles Visit.act].
    rewrite IH by apply theme_effect_slot.
    rewrite Nat.even_succ, <- Nat.negb_even. simpl Theme.dark.
    destruct (Nat.even (Visit.toggles acts)); simpl; [done |].
    apply negb_involutive.
  - cbn [foldl Visit.toggles Visit.act].
    assert (Hd : Theme.dark (Theme.reload s media) = Theme.dark s).
    { unfold Theme.reload. rewrite mount_dark. by apply resolve_written. }
    rewrite IH, Hd; [done |].
    unfold Theme.reload.
    destruct (mount_is_effect (Theme.localStorage s) media) as (ls' & -> & _).
    apply theme_effect_slot.
Qed.

(** X15 — Only the button changes the theme after the first load. The
    theme at the end of a visit is the theme resolved at the first load
    when the button was pressed an even number of times, and the other
    theme otherwise: a reload never changes it, whatever the media query
    reports then, so the system preference is read at the first load
    only. *)
Theorem theme_after_a_visit ls media acts :
  Theme.dark (Visit.session ls media acts)
  = if Nat.even (Visit.toggles acts) then Theme.resolve ls media
    else negb (Theme.resolve ls media).
Proof.
  unfold Visit.session. rewrite foldl_act_dark, mount_dark; [done |].
  destruct (mount_is_effect ls media) as (ls' & -> & _).
  apply theme_effect_slot.
Qed.

End ThemeMore.

(** ** Module-level helpers *)
Section UtilFacts.
Implicit Types (s t b sep : string) (env : option string).
Implicit Types (classes : list (option string)) (l k : list string).

Lemma ensure_trailing_slash_cons c d s :
  Util.ensure_trailing_slash (String c (String d s))
  = String c (Util.ensure_trailing_slash (String d s)).
Proof. reflexivity. Qed.

Lemma ensure_trailing_slash_ends s :
  s <> "" -> exists t, Util.ensure_trailing_slash s = t +:+ "/".
Proof.
  induction s as [|c s IH]; [done |]. intros _. destruct s as [|d s].
  - simpl. destruct (Ascii.eqb_spec c "/") as [-> | _].
    + by exists "".
    + by exists (String c "").
  - rewrite ensure_trailing_slash_cons.
    destruct IH as [t ->]; [done |]. by exists (String c t).
Qed.

Lemma ensure_trailing_slash_fixed t :
  Util.ensure_trailing_slash (t +:+ "/") = t +:+ "/".
Proof.
  induction t as [|c t IH]; [done |]. rewrite append_cons.
  destruct (t +:+ "/") as [|d u] eqn:E.
  - by destruct t.
  - by rewrite ensure_trailing_slash_cons, IH.
Qed.

Lemma ensure_trailing_slash_adds s :
  s <> "" -> (forall t, s <> t +:+ "/") ->
  Util.ensure_trailing_slash s = s +:+ "/".
Proof.
  induction s as [|c s IH]; [done |]. intros _ Hno. destruct s as [|d s].
  - simpl. destruct (Ascii.eqb_spec c "/") as [-> | _]; [| done].
    by destruct (Hno "").
  - rewrite ensure_trailing_slash_cons, append_cons, IH; [done.. |].
    intros t Ht. apply (Hno (String c t)). by rewrite append_cons, Ht.
Qed.

Lemma truthy_append_slash t : JS.truthy (t +:+ "/") = true.
Proof. by destruct t. Qed.

Lemma BASE_URL_ends env : exists t, Util.BASE_URL env = t +:+ "/".
Proof.
  unfold Util.BASE_URL. apply ensure_trailing_slash_ends.
  destruct env as [[|c b]|]; done.
Qed.

(** X16 — The base URL always ends with a slash. Whatever base the
    build defines (none, the empty string, any text), [BASE_URL] ends
    with a slash; a base that already ends with a slash is kept as it
    is; any other non-empty base gets one slash appended; normalizing
    again changes nothing. *)
Theorem base_url_ends_with_slash :
  (forall env, exists t, Util.BASE_URL env = t +:+ "/")
  /\ Util.BASE_URL None = "/" /\ Util.BASE_URL (Some "") = "/"
  /\ (forall t, Util.BASE_URL (Some (t +:+ "/")) = t +:+ "/")
  /\ (forall b, b <> "" -> (forall t, b <> t +:+ "/") ->
                Util.BASE_URL (Some b) = b +:+ "/")
  /\ (forall env, Util.ensure_trailing_slash (Util.BASE_URL env)
                  = Util.BASE_URL env).
Proof.
  split; [exact BASE_URL_ends |]. split; [done |]. split; [done |].
  split; [| split].
  - intros t. unfold Util.BASE_URL, JS.or_else.
    rewrite truthy_append_slash. apply ensure_trailing_slash_fixed.
  - intros b Hb Hno. unfold Util.BASE_URL, JS.or_else.
    destruct b as [|c b]; [done |]. simpl JS.truthy. cbv iota.
    by apply ensure_trailing_slash_adds.
  - intros env. destruct (BASE_URL_ends env) as [t ->].
    apply ensure_trailing_slash_fixed.
Qed.

Lemma base_url_ends_with_slash_witness :
  Util.BASE_URL (Some "/portfolio") = "/portfolio" +:+ "/".
Proof.
  apply (proj1 (proj2 (proj2 (proj2 (proj2 base_url_ends_with_slash))))
           "/portfolio"); [discriminate |].
  intros t Ht.
  assert (H : String.length "/portfolio" = String.length (t +:+ "/"))
    by by rewrite <- Ht.
  do 11 (destruct t as [|? t]; [discriminate Ht |]).
  revert H. rewrite !append_cons. simpl. lia.
Defined.

(** X17 — The self tests never fail. For every base that the build can
    define, both conditions checked by [runSelfTests] hold: [BASE_URL]
    is not empty and the resume URL contains the file name of the
    resume; the resume URL is the base, with its slash, followed by the
    file name. *)
Theorem self_tests_always_pass env :
  Util.runSelfTests env = (true, true)
  /\ exists t, Util.resumeUrl env = t +:+ "/Neil-Toms-Resume.pdf".
Proof.
  destruct (BASE_URL_ends env) as [t Ht]. split.
  - unfold Util.runSelfTests. f_equal.
    + rewrite Ht. apply truthy_append_slash.
    + apply includes_spec. exists (Util.BASE_URL env), "".
      unfold Util.resumeUrl. by rewrite append_nil_r.
  - exists t. unfold Util.resumeUrl. by rewrite Ht, append_assoc.
Qed.

Lemma truthy_classes_app classes classes' :
  Util.truthy_classes (classes ++ classes')
  = Util.truthy_classes classes ++ Util.truthy_classes classes'.
Proof.
  induction classes as [|[c|] classes IH]; simpl; [done | | done].
  destruct (JS.truthy c); simpl; by rewrite IH.
Qed.

Lemma truthy_classes_truthy classes :
  Forall (fun c => JS.truthy c = true) (Util.truthy_classes classes).
Proof.
  induction classes as [|[c|] classes IH]; simpl; [constructor | | done].
  destruct (JS.truthy c) eqn:E; [by constructor | done].
Qed.

Lemma join_cons sep s l :
  l <> [] -> Util.join sep (s :: l) = s +:+ sep +:+ Util.join sep l.
Proof. by destruct l. Qed.

Lemma join_app sep l k :
  l <> [] -> k <> [] ->
  Util.join sep (l ++ k) = Util.join sep l +:+ sep +:+ Util.join sep k.
Proof.
  intros Hl Hk. induction l as [|s l IH]; [done |].
  destruct l as [|t l].
  - simpl app. by rewrite join_cons.
  - change ((s :: t :: l) ++ k) with (s :: ((t :: l) ++ k)).
    rewrite !join_cons, IH by done. by rewrite !append_assoc.
Qed.

Lemma truthy_join sep l :
  Forall (fun c => JS.truthy c = true) l ->
  JS.truthy (Util.join sep l) = negb (bool_decide (l = [])).
Proof.
  intros H. destruct H as [|s l Hs H]; [done |].
  destruct s as [|c s]; [done |]. by destruct l.
Qed.

(** X18 — [cn] joins the class names that are given and drops what is
    not one. A falsy argument (an absent or false value, or the empty
    string) changes nothing wherever it stands; the class string of two
    argument lists put together is the two class strings separated by
    one space, or the one that is not empty, so no space is ever written
    for a dropped argument. *)
Theorem cn_drops_falsy_and_composes classes classes' :
  Util.cn (classes ++ None :: classes') = Util.cn (classes ++ classes')
  /\ Util.cn (classes ++ Some "" :: classes') = Util.cn (classes ++ classes')
  /\ Util.cn (classes ++ classes')
     = if JS.truthy (Util.cn classes)
       then if JS.truthy (Util.cn classes')
            then Util.cn classes +:+ " " +:+ Util.cn classes'
            else Util.cn classes
       else Util.cn classes'.
Proof.
  unfold Util.cn. split; [| split].
  - by rewrite !truthy_classes_app.
  - by rewrite !truthy_classes_app.
  - rewrite truthy_classes_app.
    rewrite !truthy_join by apply truthy_classes_truthy.
    destruct (Util.truthy_classes classes) as [|a l] eqn:E1;
      destruct (Util.truthy_classes classes') as [|b k] eqn:E2.
    + done.
    + done.
    + by rewrite app_nil_r.
    + by apply join_app.
Qed.

End UtilFacts.
